(** * Qrack: the SIMD complex scalar and the CPU engine

  A shallow embedding of [ComplexSimd] (two [double] lanes of an SSE2
  register) and of the [QEngineCPU] register, with [double]
  read as exact real arithmetic. *)

From Stdlib Require Import Reals Lra.
From stdpp Require Import base tactics functions list.

(** ** The SSE2 intrinsics used by [ComplexSimd] *)

Module Sse2.

Local Open Scope R_scope.

(** [__m128d]: two packed doubles, lane 0 in the low 64 bits.  A lane
    holds a real number: rounding, overflow, underflow and NaN of the
    binary64 format are outside the model, so only identities between
    lane expressions that need no more than commutativity of the lane
    sum and of the lane product carry over to the machine arithmetic. *)
Record __m128d := Build_m128d { lane0 : R; lane1 : R }.

(** [__v2df] is GCC's vector type behind [__m128d]; the cast between the
    two is a no-op and [v[i]] reads lane [i] (the program reads lanes 0
    and 1 only). *)
Abbreviation __v2df := __m128d.

Definition subscript (v : __v2df) (i : nat) : R :=
  match i with
  | O => lane0 v
  | _ => lane1 v
  end.

(** [__m128i] as the program uses it: the same 128 bits seen as two
    64-bit lanes.  Only whole lanes are ever moved through this view, so
    a lane carries the double whose bit pattern it holds; the all-zero
    pattern is the double [0]. *)
Record __m128i := Build_m128i { quad0 : R; quad1 : R }.

Definition _mm_castpd_si128 (a : __m128d) : __m128i :=
  {| quad0 := lane0 a; quad1 := lane1 a |}.

Definition _mm_castsi128_pd (a : __m128i) : __m128d :=
  {| lane0 := quad0 a; lane1 := quad1 a |}.

(** [_mm_set_pd (e1, e0)]: [e0] goes to lane 0, [e1] to lane 1. *)
Definition _mm_set_pd (e1 e0 : R) : __m128d :=
  {| lane0 := e0; lane1 := e1 |}.

Definition _mm_set1_pd (a : R) : __m128d :=
  {| lane0 := a; lane1 := a |}.

Definition _mm_add_pd (a b : __m128d) : __m128d :=
  {| lane0 := lane0 a + lane0 b; lane1 := lane1 a + lane1 b |}.

Definition _mm_sub_pd (a b : __m128d) : __m128d :=
  {| lane0 := lane0 a - lane0 b; lane1 := lane1 a - lane1 b |}.

Definition _mm_mul_pd (a b : __m128d) : __m128d :=
  {| lane0 := lane0 a * lane0 b; lane1 := lane1 a * lane1 b |}.

Definition _mm_div_pd (a b : __m128d) : __m128d :=
  {| lane0 := lane0 a / lane0 b; lane1 := lane1 a / lane1 b |}.

(** [_mm_move_sd (a, b)]: lane 0 from [b], lane 1 from [a]. *)
Definition _mm_move_sd (a b : __m128d) : __m128d :=
  {| lane0 := lane0 b; lane1 := lane1 a |}.

(** Byte shifts of the whole register, zero filled.  The count is an
    immediate; a count that is not a multiple of 8 cuts through a lane
    and is outside this lane-level model (the program shifts by 8). *)
Definition _mm_bslli_si128 (a : __m128i) (imm8 : nat) : __m128i :=
  match imm8 with
  | 0%nat => a
  | 8%nat => {| quad0 := 0; quad1 := quad0 a |}
  | _ => {| quad0 := 0; quad1 := 0 |}
  end.

Definition _mm_bsrli_si128 (a : __m128i) (imm8 : nat) : __m128i :=
  match imm8 with
  | 0%nat => a
  | 8%nat => {| quad0 := quad1 a; quad1 := 0 |}
  | _ => {| quad0 := 0; quad1 := 0 |}
  end.

End Sse2.

(** ** Objects, references and the store

  [ComplexSimd] members take [this] and [const ComplexSimd&] operands,
  which may alias ([z += z]).  Objects therefore live in a store and the
  members are computations over it. *)

Module Mem.

Import Sse2.

(** [struct ComplexSimd]: its one data member. *)
Record ComplexSimd := Build_ComplexSimd { _val : __m128d }.

Abbreviation ref := nat (only parsing).
Abbreviation store := (ref → ComplexSimd) (only parsing).

(** Computations that thread a state of type [S]. *)
Definition State (S A : Type) : Type := S → A * S.

#[export] Instance State_ret {S} : MRet (State S) := λ A x σ, (x, σ).
#[export] Instance State_bind {S} : MBind (State S) :=
  λ A B f m σ, let '(a, σ') := m σ in f a σ'.

Definition eval {S A} (m : State S A) (σ : S) : A := fst (m σ).
Definition exec {S A} (m : State S A) (σ : S) : S := snd (m σ).

(** Read a component of the state; update the state. *)
Definition gets {S A} (f : S → A) : State S A := λ σ, (f σ, σ).
Definition modify {S} (f : S → S) : State S unit := λ σ, (tt, f σ).

Abbreviation M := (State store).

(** Read [r._val]. *)
Definition get_val (r : ref) : M __m128d := gets (λ σ, _val (σ r)).

(** [r._val = v]. *)
Definition set_val (r : ref) (v : __m128d) : M unit :=
  modify (λ σ, <[r := {| _val := v |}]> σ).

(** A store with [x] in cell 0 and [y] in every other cell. *)
Definition cells (x y : ComplexSimd) : store :=
  λ r, match r with O => x | _ => y end.

End Mem.

(** ** [struct ComplexSimd] and the free functions of namespace [Qrack] *)

Module Qrack.

Import Sse2 Mem.

Local Open Scope R_scope.

(** [ComplexSimd(__m128d v)] *)
Definition ComplexSimd_m128d (v : __m128d) : ComplexSimd :=
  {| _val := v |}.

(** [ComplexSimd(double real, double imag)] *)
Definition ComplexSimd_doubles (real imag : R) : ComplexSimd :=
  {| _val := _mm_set_pd imag real |}.

(** [operator+] *)
Definition operator_add (this other : ref) : M ComplexSimd :=
  v ← get_val this;
  o ← get_val other;
  mret (ComplexSimd_m128d (_mm_add_pd v o)).

(** [operator+=] *)
Definition operator_add_assign (this other : ref) : M ComplexSimd :=
  v ← get_val this;
  o ← get_val other;
  set_val this (_mm_add_pd v o);;
  v' ← get_val this;
  mret (ComplexSimd_m128d v').

(** [operator-] *)
Definition operator_sub (this other : ref) : M ComplexSimd :=
  v ← get_val this;
  o ← get_val other;
  mret (ComplexSimd_m128d (_mm_sub_pd v o)).

(** [operator-=] *)
Definition operator_sub_assign (this other : ref) : M ComplexSimd :=
  v ← get_val this;
  o ← get_val other;
  set_val this (_mm_sub_pd v o);;
  v' ← get_val this;
  mret (ComplexSimd_m128d v').

(** [operator*(const ComplexSimd&)] *)
Definition operator_mul (this other : ref) : M ComplexSimd :=
  o ← get_val other;
  v ← get_val this;
  let realComps : __v2df := _mm_mul_pd o v in
  let imagComps : __v2df :=
    _mm_mul_pd o
      (_mm_move_sd
         (_mm_castsi128_pd (_mm_bslli_si128 (_mm_castpd_si128 v) 8))
         (_mm_castsi128_pd (_mm_bsrli_si128 (_mm_castpd_si128 v) 8))) in
  mret (ComplexSimd_doubles
          (subscript realComps 0 - subscript realComps 1)
          (subscript imagComps 0 + subscript imagComps 1)).

(** [operator*=] *)
Definition operator_mul_assign (this other : ref) : M ComplexSimd :=
  o ← get_val other;
  v ← get_val this;
  let realComps : __v2df := _mm_mul_pd o v in
  let imagComps : __v2df :=
    _mm_mul_pd o
      (_mm_move_sd
         (_mm_castsi128_pd (_mm_bslli_si128 (_mm_castpd_si128 v) 8))
         (_mm_castsi128_pd (_mm_bsrli_si128 (_mm_castpd_si128 v) 8))) in
  set_val this
    (_mm_set_pd (subscript realComps 0 - subscript realComps 1)
                (subscript imagComps 0 + subscript imagComps 1));;
  v' ← get_val this;
  mret (ComplexSimd_m128d v').

(** [operator*(const double)] *)
Definition operator_mul_double (this : ref) (rhs : R) : M ComplexSimd :=
  v ← get_val this;
  mret (ComplexSimd_m128d (_mm_mul_pd v (_mm_set1_pd rhs))).

(** [operator/(const double)] *)
Definition operator_div_double (this : ref) (rhs : R) : M ComplexSimd :=
  v ← get_val this;
  mret (ComplexSimd_m128d (_mm_div_pd v (_mm_set1_pd rhs))).

(** [operator/=(const double)] *)
Definition operator_div_double_assign (this : ref) (rhs : R) : M ComplexSimd :=
  v ← get_val this;
  set_val this (_mm_div_pd v (_mm_set1_pd rhs));;
  v' ← get_val this;
  mret (ComplexSimd_m128d v').

(** [operator*(const double lhs, const ComplexSimd& rhs)] *)
Definition double_operator_mul (lhs : R) (rhs : ref) : M ComplexSimd :=
  v ← get_val rhs;
  mret (ComplexSimd_m128d (_mm_mul_pd (_mm_set1_pd lhs) v)).

(** [real] *)
Definition real (cmplx : ref) : M R :=
  v ← get_val cmplx;
  mret (subscript v 0).

(** [imag] *)
Definition imag (cmplx : ref) : M R :=
  v ← get_val cmplx;
  mret (subscript v 1).

(** [normSqrd] *)
Definition normSqrd (cmplx : ref) : M R :=
  v ← get_val cmplx;
  let temp : __v2df := _mm_mul_pd v v in
  mret (subscript temp 0 + subscript temp 1).

(** A store for examples: z = (1, 2) in cell 0 and w = (3, 4) in every
    other cell. *)
Definition z12_w34 : store :=
  cells (ComplexSimd_doubles 1 2) (ComplexSimd_doubles 3 4).

End Qrack.

(** ** [class QEngineCPU] *)

Module QEngine.

Import Sse2 Mem Qrack.

(** Modelled from the spec: the typedefs of [qinterface.hpp], which is
    not at hand.  Qubit positions and basis indices are unsigned integers,
    taken unbounded; an amplitude is the complex scalar of the arithmetic
    component (section 2). *)
Definition bitLenInt := nat.
Definition bitCapInt := nat.
Abbreviation real1 := R.
Abbreviation complex := ComplexSimd.

(** The data members: [qubitCount] is inherited from [QInterface], the
    others are declared in the class; [stateVec] is the owned buffer. *)
Record QEngineCPU := Build_QEngineCPU {
  qubitCount : bitLenInt;
  doNormalize : bool;
  runningNorm : real1;
  stateVec : list complex
}.

Definition maxQPower (e : QEngineCPU) : bitCapInt := 2 ^ qubitCount e.

(** The data-model invariant: the buffer holds [2^qubitCount] amplitudes. *)
Definition wf (e : QEngineCPU) : Prop :=
  length (stateVec e) = maxQPower e.

Definition with_runningNorm (n : real1) (e : QEngineCPU) : QEngineCPU :=
  {| qubitCount := qubitCount e; doNormalize := doNormalize e;
     runningNorm := n; stateVec := stateVec e |}.

Definition with_stateVec (v : list complex) (e : QEngineCPU) : QEngineCPU :=
  {| qubitCount := qubitCount e; doNormalize := doNormalize e;
     runningNorm := runningNorm e; stateVec := v |}.

(** A member of [ComplexSimd] applied to temporaries: the operands are
    placed in two fresh cells. *)
Definition on_temp {A} (f : ref → M A) (x : complex) : A :=
  eval (f 0) (cells x x).

Definition on_temps {A} (f : ref → ref → M A) (x y : complex) : A :=
  eval (f 0 1) (cells x y).

(** Modelled from the spec: the reduction behind [UpdateRunningNorm], the
    sum of squared magnitudes over a buffer. *)
Definition par_norm (v : list complex) : real1 :=
  foldr (λ a acc, (on_temp normSqrd a + acc)%R) 0%R v.

(** Modelled from the spec: the body of [UpdateRunningNorm] is not in the
    header.  It recomputes the exact sum of squared magnitudes over the
    full buffer and stores it. *)
Definition UpdateRunningNorm : State QEngineCPU unit :=
  modify (λ e, with_runningNorm (par_norm (stateVec e)) e).

(** [GetNorm], as written inline in the class. *)
Definition GetNorm (update : bool) : State QEngineCPU real1 :=
  (if update then UpdateRunningNorm else mret tt);;
  gets runningNorm.

(** [SetNorm], as written inline in the class. *)
Definition SetNorm (n : real1) : State QEngineCPU unit :=
  modify (with_runningNorm n).

(** *** The operations whose bodies are outside the header

    [qengine.cpp] is not part of the sources at hand; the operations below
    follow the specification text. *)

(** Modelled from the spec: the two addressing error kinds (sections 4.4
    and 7); the header declares no error type. *)
Inductive EngineError := OutOfRange | Overlap.

(** Modelled from the spec: the 2-by-2 gate matrix that the header passes
    as [const complex* mtrx], row by row. *)
Record matrix2 := Build_matrix2 {
  u00 : complex; u01 : complex; u10 : complex; u11 : complex
}.

(** The amplitudes 0 and 1, and sum and product of amplitudes. *)
Definition czero : complex := ComplexSimd_doubles 0 0.
Definition cone : complex := ComplexSimd_doubles 1 0.

Definition cadd : complex → complex → complex := on_temps operator_add.
Definition cmul : complex → complex → complex := on_temps operator_mul.

(** Modelled from the spec: the amplitude at a basis index. *)
Definition amp (v : list complex) (i : bitCapInt) : complex :=
  default czero (v !! i).

(** Modelled from the spec: a control list pairs each control qubit with
    the value it must have ([true] for a control, [false] for an
    anti-control); all of them must hold (section 4.5). *)
Definition controls_active (ctrls : list (bitLenInt * bool))
    (i : bitCapInt) : bool :=
  forallb (λ c, eqb (Nat.testbit i c.1) c.2) ctrls.

(** Modelled from the spec: the gate application kernel (section 4.5).
    Where the controls are active the pair [(i0, i1)] that differs in the
    target bit becomes [(u00 a0 + u01 a1, u10 a0 + u11 a1)]; everywhere
    else the amplitude passes through. *)
Definition kernel_amp (ctrls : list (bitLenInt * bool)) (target : bitLenInt)
    (mtrx : matrix2) (v : list complex) (i : bitCapInt) : complex :=
  if controls_active ctrls i then
    if Nat.testbit i target then
      cadd (cmul (u10 mtrx) (amp v (i - 2 ^ target)))
           (cmul (u11 mtrx) (amp v i))
    else
      cadd (cmul (u00 mtrx) (amp v i))
           (cmul (u01 mtrx) (amp v (i + 2 ^ target)))
  else amp v i.

(** Modelled from the spec: the norm accumulated by the kernel sums the
    squared magnitudes of the written amplitudes only. *)
Definition touched_norm (ctrls : list (bitLenInt * bool))
    (v : list complex) : real1 :=
  foldr Rplus 0%R
    (imap (λ i a, if controls_active ctrls i
                  then on_temp normSqrd a else 0%R) v).

(** Modelled from the spec: one pass of the kernel over the buffer. *)
Definition kernel (ctrls : list (bitLenInt * bool)) (target : bitLenInt)
    (mtrx : matrix2) (doCalcNorm : bool) : State QEngineCPU unit :=
  modify (λ e,
    let nStateVec :=
      imap (λ i _, kernel_amp ctrls target mtrx (stateVec e) i)
           (stateVec e) in
    let e' := with_stateVec nStateVec e in
    if doCalcNorm
    then with_runningNorm (touched_norm ctrls nStateVec) e'
    else e').

(** Modelled from the spec: the index permutation of [INC] (section 4.8).
    The amplitude at index [i] moves to the index whose field
    [start .. start+length-1] reads [(field + toAdd) mod 2^length]; the
    bits below and above the field stay. *)
Definition inc_index (toAdd : bitCapInt) (start length : bitLenInt)
    (i : bitCapInt) : bitCapInt :=
  let lengthPower := 2 ^ length in
  let field := (i / 2 ^ start) mod lengthPower in
  i mod 2 ^ start
  + 2 ^ start * ((field + toAdd) mod lengthPower)
  + 2 ^ (start + length) * (i / 2 ^ (start + length)).

(** Modelled from the spec: a permutation of basis indices moves every
    amplitude of [src], from index [i] on, to slot [f i] of the new
    buffer (section 4.8). *)
Fixpoint scatter (f : bitCapInt → bitCapInt) (i : bitCapInt)
    (src nStateVec : list complex) : list complex :=
  match src with
  | [] => nStateVec
  | a :: src' => scatter f (S i) src' (<[f i := a]> nStateVec)
  end.

(** Modelled from the spec: the new buffer of a permutation. *)
Definition permute (f : bitCapInt → bitCapInt) (v : list complex)
    : list complex :=
  scatter f 0 v (replicate (length v) czero).

(** Modelled from the spec: the calls modelled here, which are the five
    entry points of the gate kernel and [INC]; the other members the
    header declares are not represented.  A matrix stands for the four
    amplitudes behind [const complex* mtrx]. *)
Inductive call :=
  | ApplySingleBit (mtrx : matrix2) (doCalcNorm : bool)
      (qubitIndex : bitLenInt)
  | ApplyControlled2x2 (control target : bitLenInt) (mtrx : matrix2)
      (doCalcNorm : bool)
  | ApplyAntiControlled2x2 (control target : bitLenInt) (mtrx : matrix2)
      (doCalcNorm : bool)
  | ApplyDoublyControlled2x2 (control1 control2 target : bitLenInt)
      (mtrx : matrix2) (doCalcNorm : bool)
  | ApplyDoublyAntiControlled2x2 (control1 control2 target : bitLenInt)
      (mtrx : matrix2) (doCalcNorm : bool)
  | INC (toAdd : bitCapInt) (start length : bitLenInt).

(** Modelled from the spec: the bit-flip matrix and the gates that feed
    it to the kernel (section 4.5). *)
Definition pauliX : matrix2 :=
  {| u00 := czero; u01 := cone; u10 := cone; u11 := czero |}.

Definition X (qubitIndex : bitLenInt) : call :=
  ApplySingleBit pauliX false qubitIndex.
Definition CNOT (control target : bitLenInt) : call :=
  ApplyControlled2x2 control target pauliX false.
Definition AntiCNOT (control target : bitLenInt) : call :=
  ApplyAntiControlled2x2 control target pauliX false.
Definition CCNOT (control1 control2 target : bitLenInt) : call :=
  ApplyDoublyControlled2x2 control1 control2 target pauliX false.
Definition AntiCCNOT (control1 control2 target : bitLenInt) : call :=
  ApplyDoublyAntiControlled2x2 control1 control2 target pauliX false.

(** Modelled from the spec: the special bit positions of a call, one per
    role, controls before the target (section 4.4). *)
Definition special_bits (c : call) : list bitLenInt :=
  match c with
  | ApplySingleBit _ _ q => [q]
  | ApplyControlled2x2 c t _ _ | ApplyAntiControlled2x2 c t _ _ => [c; t]
  | ApplyDoublyControlled2x2 c1 c2 t _ _
  | ApplyDoublyAntiControlled2x2 c1 c2 t _ _ => [c1; c2; t]
  | INC _ _ _ => []
  end.

(** Modelled from the spec: every qubit index a call addresses. *)
Definition qubits_used (c : call) : list bitLenInt :=
  match c with
  | INC _ start length => seq start length
  | _ => special_bits c
  end.

(** Modelled from the spec: validation (sections 4.4 and 7).  An index
    at or above [qubitCount] is [OutOfRange], two roles on one qubit are
    an [Overlap]. *)
Definition validate (c : call) (e : QEngineCPU) : option EngineError :=
  if negb (forallb (λ q, q <? qubitCount e) (qubits_used c))
  then Some OutOfRange
  else if negb (bool_decide (NoDup (special_bits c)))
  then Some Overlap
  else None.

(** Modelled from the spec: what an accepted call does to the register. *)
Definition mutate (c : call) : State QEngineCPU unit :=
  match c with
  | ApplySingleBit mtrx doCalcNorm q => kernel [] q mtrx doCalcNorm
  | ApplyControlled2x2 c t mtrx doCalcNorm =>
      kernel [(c, true)] t mtrx doCalcNorm
  | ApplyAntiControlled2x2 c t mtrx doCalcNorm =>
      kernel [(c, false)] t mtrx doCalcNorm
  | ApplyDoublyControlled2x2 c1 c2 t mtrx doCalcNorm =>
      kernel [(c1, true); (c2, true)] t mtrx doCalcNorm
  | ApplyDoublyAntiControlled2x2 c1 c2 t mtrx doCalcNorm =>
      kernel [(c1, false); (c2, false)] t mtrx doCalcNorm
  | INC toAdd start length =>
      modify (λ e,
        with_stateVec (permute (inc_index toAdd start length) (stateVec e)) e)
  end.

(** Modelled from the spec: a call validates its arguments before any
    amplitude is written (section 7). *)
Definition perform (c : call) : State QEngineCPU (EngineError + unit) :=
  λ e, match validate c e with
       | Some err => (inl err, e)
       | None => (inr tt, exec (mutate c) e)
       end.

(** A register for examples: two qubits in basis state 0. *)
Definition two_qubits : QEngineCPU :=
  {| qubitCount := 2; doNormalize := true; runningNorm := 1%R;
     stateVec := [cone; czero; czero; czero] |}.

(** A register for examples: [n] qubits with the given amplitudes. *)
Definition register (n : bitLenInt) (v : list complex) : QEngineCPU :=
  {| qubitCount := n; doNormalize := true; runningNorm := 1%R;
     stateVec := v |}.

End QEngine.

(** ** Operators on temporaries

    In an expression such as [(z + w) * u] the operands of the outer
    operator are temporaries.  The definitions below run a member with
    its operands held in fresh cells. *)

Module Temporaries.

Import Sse2 Mem Qrack QEngine.

Definition creal : complex → R := on_temp real.
Definition cimag : complex → R := on_temp imag.
Definition cnorm : complex → R := on_temp normSqrd.

End Temporaries.

(** ** The remaining inline members of [QEngineCPU] *)

Module QEngineInline.

Import Mem QEngine.

Definition with_doNormalize (doN : bool) (e : QEngineCPU) : QEngineCPU :=
  {| qubitCount := qubitCount e; doNormalize := doN;
     runningNorm := runningNorm e; stateVec := stateVec e |}.

(** [EnableNormalize], as written inline in the class. *)
Definition EnableNormalize (doN : bool) : State QEngineCPU unit :=
  modify (with_doNormalize doN).

End QEngineInline.

(** * Properties of [ComplexSimd] *)

Module ComplexSimdProps.

Import Sse2 Mem Qrack.

Local Open Scope R_scope.

Ltac run_member :=
  unfold operator_add, operator_add_assign, operator_sub,
    operator_sub_assign, operator_mul, operator_mul_assign,
    operator_mul_double, operator_div_double, operator_div_double_assign,
    double_operator_mul, real, imag, normSqrd,
    ComplexSimd_doubles, ComplexSimd_m128d,
    eval, exec, get_val, set_val, gets, modify,
    mbind, mret, State_bind, State_ret;
  cbn; rewrite ?fn_lookup_insert;
  unfold _mm_set_pd, _mm_set1_pd, _mm_add_pd, _mm_sub_pd, _mm_mul_pd,
    _mm_div_pd, _mm_move_sd, subscript;
  cbn.

Lemma complex_eq (re re' im im' : R) :
  re = re' → im = im' →
  {| _val := {| lane0 := re; lane1 := im |} |}
  = {| _val := {| lane0 := re'; lane1 := im' |} |}.
Proof. by intros -> ->. Qed.

(** Equal results and equal final stores, up to real arithmetic in the
    lanes. *)
Ltac same_complex :=
  repeat match goal with
         | |- (_, _) = (_, _) => f_equal
         | |- <[_:=_]> _ = <[_:=_]> _ => f_equal
         end;
  try reflexivity; apply complex_eq; ring.

Lemma ComplexSimd_doubles_inj (re re' im im' : R) :
  ComplexSimd_doubles re im = ComplexSimd_doubles re' im' →
  re = re' ∧ im = im'.
Proof. unfold ComplexSimd_doubles, _mm_set_pd. by intros [= -> ->]. Qed.

(** The lanes of [v] exchanged: what the two byte shifts and
    [_mm_move_sd] of the product build. *)
Lemma move_sd_shifts (v : __m128d) :
  _mm_move_sd
    (_mm_castsi128_pd (_mm_bslli_si128 (_mm_castpd_si128 v) 8))
    (_mm_castsi128_pd (_mm_bsrli_si128 (_mm_castpd_si128 v) 8))
  = {| lane0 := lane1 v; lane1 := lane0 v |}.
Proof. reflexivity. Qed.

(** C1: for z = (a, b) and w = (c, d) the binary product [z * w] returns
    (a c - b d, a d + b c). *)
Theorem operator_mul_standard_product (σ : store) (z w : ref) :
  let a := eval (real z) σ in
  let b := eval (imag z) σ in
  let c := eval (real w) σ in
  let d := eval (imag w) σ in
  eval (operator_mul z w) σ
  = ComplexSimd_doubles (a * c - b * d) (a * d + b * c).
Proof.
  intros a b c d. subst a b c d. run_member.
  apply complex_eq; ring.
Qed.

(** What [z *= w] stores and returns: the two components of the product,
    each in the lane of the other. *)
Lemma operator_mul_assign_result (σ : store) (z w : ref) :
  let a := eval (real z) σ in
  let b := eval (imag z) σ in
  let c := eval (real w) σ in
  let d := eval (imag w) σ in
  let r := ComplexSimd_doubles (a * d + b * c) (a * c - b * d) in
  operator_mul_assign z w σ = (r, <[z := r]> σ).
Proof.
  intros a b c d r. subst a b c d r. run_member. same_complex.
Qed.

(** C2: at z = (1, 2), w = (3, 4) the binary product is (-5, 10), while
    [z *= w] returns and leaves in z the value (10, -5); the two differ. *)
Theorem operator_mul_assign_exchanges_lanes :
  eval (operator_mul 0 1) z12_w34 = ComplexSimd_doubles (-5) 10
  ∧ eval (operator_mul_assign 0 1) z12_w34 = ComplexSimd_doubles 10 (-5)
  ∧ exec (operator_mul_assign 0 1) z12_w34 0%nat = ComplexSimd_doubles 10 (-5)
  ∧ eval (operator_mul_assign 0 1) z12_w34
    ≠ eval (operator_mul 0 1) z12_w34.
Proof.
  assert (Hm : eval (operator_mul 0 1) z12_w34 = ComplexSimd_doubles (-5) 10).
  { unfold z12_w34, cells. run_member. same_complex. }
  assert (Ha : operator_mul_assign 0 1 z12_w34
               = (ComplexSimd_doubles 10 (-5),
                  <[0%nat := ComplexSimd_doubles 10 (-5)]> z12_w34)).
  { rewrite operator_mul_assign_result. unfold z12_w34, cells.
    run_member. same_complex. }
  unfold eval, exec in *. rewrite Ha, Hm. cbn.
  split; [reflexivity|]. split; [reflexivity|].
  split; [apply fn_lookup_insert|].
  intros [H1 H2]%ComplexSimd_doubles_inj. lra.
Qed.

(** C3: for z = (a, b), [normSqrd] returns a a + b b and leaves the
    store, hence z, as it was. *)
Theorem normSqrd_sum_of_squares (σ : store) (z : ref) :
  let a := eval (real z) σ in
  let b := eval (imag z) σ in
  normSqrd z σ = (a * a + b * b, σ).
Proof. reflexivity. Qed.

(** C4: [z + w] is (a + c, b + d) and [z - w] is (a - c, b - d); [z += w]
    and [z -= w] store that value in z, change no other object, and
    return it. *)
Theorem add_sub_componentwise (σ : store) (z w : ref) :
  let a := eval (real z) σ in
  let b := eval (imag z) σ in
  let c := eval (real w) σ in
  let d := eval (imag w) σ in
  let sum := ComplexSimd_doubles (a + c) (b + d) in
  let diff := ComplexSimd_doubles (a - c) (b - d) in
  eval (operator_add z w) σ = sum
  ∧ eval (operator_sub z w) σ = diff
  ∧ operator_add_assign z w σ = (sum, <[z := sum]> σ)
  ∧ operator_sub_assign z w σ = (diff, <[z := diff]> σ).
Proof.
  intros a b c d sum diff. subst a b c d sum diff.
  repeat split; run_member; same_complex.
Qed.

(** C5: [z * s] and [s * z] are both (a s, b s); for s other than 0,
    [z / s] is (a / s, b / s) and [z /= s] stores that value in z and
    returns it. *)
Theorem scalar_mul_div (σ : store) (z : ref) (s : R) :
  let a := eval (real z) σ in
  let b := eval (imag z) σ in
  let quot := ComplexSimd_doubles (a / s) (b / s) in
  eval (operator_mul_double z s) σ = ComplexSimd_doubles (a * s) (b * s)
  ∧ eval (double_operator_mul s z) σ = ComplexSimd_doubles (a * s) (b * s)
  ∧ eval (operator_mul_double z s) σ = eval (double_operator_mul s z) σ
  ∧ (s ≠ 0 →
     eval (operator_div_double z s) σ = quot
     ∧ operator_div_double_assign z s σ = (quot, <[z := quot]> σ)).
Proof.
  intros a b quot. subst a b quot.
  repeat split; run_member; same_complex.
Qed.

(** The division part of [scalar_mul_div] at z = (1, 2), s = 2. *)
Lemma scalar_mul_div_witness :
  2 ≠ 0
  ∧ eval (operator_div_double 0 2) z12_w34 = ComplexSimd_doubles (1 / 2) (2 / 2)
  ∧ operator_div_double_assign 0 2 z12_w34
    = (ComplexSimd_doubles (1 / 2) (2 / 2),
       <[0%nat := ComplexSimd_doubles (1 / 2) (2 / 2)]> z12_w34).
Proof.
  assert (H : 2 ≠ 0) by lra.
  split; [exact H|].
  exact (proj2 (proj2 (proj2 (scalar_mul_div z12_w34 0 2))) H).
Defined.

(** C6: the binary operators, the scalar operators, [real], [imag] and
    [normSqrd] write nothing: the store after each of them is the store
    before it, so both operands keep their values. *)
Theorem const_members_preserve_store (σ : store) (z w : ref) (s : R) :
  exec (operator_add z w) σ = σ
  ∧ exec (operator_sub z w) σ = σ
  ∧ exec (operator_mul z w) σ = σ
  ∧ exec (operator_mul_double z s) σ = σ
  ∧ exec (double_operator_mul s z) σ = σ
  ∧ exec (operator_div_double z s) σ = σ
  ∧ exec (real z) σ = σ
  ∧ exec (imag z) σ = σ
  ∧ exec (normSqrd z) σ = σ.
Proof. repeat split. Qed.

(** C10: the binary product commutes, [z * w = w * z]. *)
Theorem operator_mul_comm (σ : store) (z w : ref) :
  eval (operator_mul z w) σ = eval (operator_mul w z) σ.
Proof. run_member. same_complex. Qed.

End ComplexSimdProps.

(** * Properties of the register *)

Module QEngineProps.

Import Sse2 Mem Qrack QEngine.

(** [par_norm] adds, amplitude by amplitude, the square of the real lane
    and the square of the imaginary lane. *)
Lemma par_norm_cons (a : complex) (v : list complex) :
  par_norm (a :: v)
  = (lane0 (_val a) * lane0 (_val a) + lane1 (_val a) * lane1 (_val a)
     + par_norm v)%R.
Proof. reflexivity. Qed.

(** C7: [GetNorm(true)] runs [UpdateRunningNorm] and returns the
    recomputed sum of squared magnitudes, which is then the cached norm;
    [GetNorm(false)] returns the cached norm and changes nothing; neither
    changes the amplitude vector. *)
Theorem GetNorm_update_and_cached (e : QEngineCPU) :
  GetNorm true e = (par_norm (stateVec e), exec UpdateRunningNorm e)
  ∧ runningNorm (exec (GetNorm true) e) = par_norm (stateVec e)
  ∧ GetNorm false e = (runningNorm e, e)
  ∧ ∀ update, stateVec (exec (GetNorm update) e) = stateVec e.
Proof.
  repeat split. by intros [].
Qed.

(** ** The index permutation of [INC] *)

Section field_arithmetic.

Variables P Q : nat.

(** An index is its low part, its field and its high part. *)
Lemma index_parts (i : nat) :
  i = i mod P + P * ((i / P) mod Q) + P * Q * (i / (P * Q)).
Proof.
  rewrite <- Nat.Div0.div_div.
  pose proof (Nat.div_mod_eq i P) as H1.
  pose proof (Nat.div_mod_eq (i / P) Q) as H2.
  nia.
Qed.

(** The three parts can be read back from their sum. *)
Lemma parts_of_sum (lo fld hi : nat) :
  lo < P → fld < Q →
  let x := lo + P * fld + P * Q * hi in
  x mod P = lo ∧ (x / P) mod Q = fld ∧ x / (P * Q) = hi.
Proof.
  intros Hlo Hfld x.
  assert (Hdiv : x / P = fld + Q * hi).
  { symmetry. apply (Nat.div_unique x P _ lo); [done|]. subst x. nia. }
  split; [|split].
  - symmetry. apply (Nat.mod_unique x P (fld + Q * hi)); [done|].
    subst x. nia.
  - rewrite Hdiv. symmetry. apply (Nat.mod_unique _ Q hi); [done|]. nia.
  - rewrite <- Nat.Div0.div_div, Hdiv. symmetry.
    apply (Nat.div_unique _ Q _ fld); [done|]. nia.
Qed.

End field_arithmetic.

Lemma inc_index_parts (toAdd : bitCapInt) (start length : bitLenInt)
    (i : bitCapInt) :
  inc_index toAdd start length i
  = i mod 2 ^ start
    + 2 ^ start * (((i / 2 ^ start) mod 2 ^ length + toAdd) mod 2 ^ length)
    + 2 ^ start * 2 ^ length * (i / (2 ^ start * 2 ^ length)).
Proof. unfold inc_index. by rewrite Nat.pow_add_r. Qed.

Lemma pow2_pos (n : nat) : 0 < 2 ^ n.
Proof. apply Nat.neq_0_lt_0, Nat.pow_nonzero. lia. Qed.

(** Adding [a] and then [b] to the field is the identity when [a + b] is
    a multiple of [2^length]. *)
Lemma inc_index_cancel (a b : bitCapInt) (start length : bitLenInt)
    (i : bitCapInt) :
  (a + b) mod 2 ^ length = 0 →
  inc_index b start length (inc_index a start length i) = i.
Proof.
  intros Hab.
  pose proof (pow2_pos start) as HP. pose proof (pow2_pos length) as HQ.
  rewrite (inc_index_parts b), (inc_index_parts a).
  set (P := 2 ^ start) in *. set (Q := 2 ^ length) in *.
  set (fld := ((i / P) mod Q + a) mod Q).
  destruct (parts_of_sum P Q (i mod P) fld (i / (P * Q)))
    as (-> & -> & ->).
  { apply Nat.mod_upper_bound. lia. }
  { apply Nat.mod_upper_bound. lia. }
  subst fld.
  rewrite Nat.Div0.add_mod_idemp_l.
  replace ((i / P) mod Q + a + b) with ((i / P) mod Q + (a + b)) by lia.
  rewrite <- Nat.Div0.add_mod_idemp_r, Hab, Nat.add_0_r.
  rewrite Nat.Div0.mod_mod. symmetry. apply index_parts.
Qed.

(** The permutation keeps indices inside a register that contains the
    field. *)
Lemma inc_index_lt (toAdd : bitCapInt) (start length n : bitLenInt)
    (i : bitCapInt) :
  start + length ≤ n → i < 2 ^ n →
  inc_index toAdd start length i < 2 ^ n.
Proof.
  intros Hn Hi.
  pose proof (pow2_pos start) as HP. pose proof (pow2_pos length) as HQ.
  rewrite inc_index_parts.
  replace n with (start + length + (n - (start + length))) in * by lia.
  rewrite !Nat.pow_add_r in *.
  set (P := 2 ^ start) in *. set (Q := 2 ^ length) in *.
  set (K := 2 ^ (n - (start + length))) in *.
  assert (Hhi : i / (P * Q) < K)
    by (apply Nat.Div0.div_lt_upper_bound; lia).
  assert (Hlo : i mod P < P) by (apply Nat.mod_upper_bound; lia).
  assert (Hf : ((i / P) mod Q + toAdd) mod Q < Q)
    by (apply Nat.mod_upper_bound; lia).
  set (lo := i mod P) in *.
  set (fld := ((i / P) mod Q + toAdd) mod Q) in *.
  set (hi := i / (P * Q)) in *.
  assert (H1 : P * fld + P ≤ P * Q) by nia.
  assert (H2 : P * Q * hi + P * Q ≤ P * Q * K) by nia.
  lia.
Qed.

(** ** Scattering amplitudes into a new buffer *)

Lemma scatter_length (f : bitCapInt → bitCapInt) (src : list complex) :
  ∀ i dst, length (scatter f i src dst) = length dst.
Proof.
  induction src as [|a src IH]; intros i dst; cbn; [done|].
  by rewrite IH, length_insert.
Qed.

(** A slot that no remaining source index maps to keeps its content. *)
Lemma scatter_lookup_miss (f : bitCapInt → bitCapInt) (j : bitCapInt)
    (src : list complex) :
  ∀ i dst, (∀ k, k < length src → f (i + k) ≠ j) →
           scatter f i src dst !! j = dst !! j.
Proof.
  induction src as [|a src IH]; intros i dst Hmiss; cbn; [done|].
  rewrite IH.
  - apply list_lookup_insert_ne. specialize (Hmiss 0).
    rewrite Nat.add_0_r in Hmiss. apply Hmiss. cbn. lia.
  - intros k Hk. replace (S i + k) with (i + S k) by lia.
    apply Hmiss. cbn. lia.
Qed.

(** The amplitude at source position [k] lands in slot [f (i + k)] when
    no later position maps to that slot. *)
Lemma scatter_lookup_hit (f : bitCapInt → bitCapInt) (src : list complex) :
  ∀ i dst k a,
    src !! k = Some a →
    (∀ k', k < k' < length src → f (i + k') ≠ f (i + k)) →
    f (i + k) < length dst →
    scatter f i src dst !! f (i + k) = Some a.
Proof.
  induction src as [|b src IH]; intros i dst k a Hk Hlater Hlt; [done|].
  destruct k as [|k]; cbn in *.
  - injection Hk as ->. rewrite Nat.add_0_r in *.
    rewrite scatter_lookup_miss.
    + by apply list_lookup_insert_eq.
    + intros k Hlen. replace (S i + k) with (i + S k) by lia.
      apply Hlater. lia.
  - replace (i + S k) with (S i + k) in * by lia.
    apply IH; [done| |by rewrite length_insert].
    intros k' Hk'. replace (S i + k') with (i + S k') by lia.
    apply Hlater. lia.
Qed.

Section injection.

Variables (f : bitCapInt → bitCapInt) (n : nat).
Hypothesis f_lt : ∀ i, i < n → f i < n.
Hypothesis f_inj : ∀ i j, i < n → j < n → f i = f j → i = j.

Lemma permute_length (v : list complex) : length (permute f v) = length v.
Proof. unfold permute. by rewrite scatter_length, length_replicate. Qed.

(** Under an injection of the index range into itself, slot [f i] of the
    new buffer holds the old amplitude of index [i]. *)
Lemma permute_lookup (v : list complex) (i : bitCapInt) :
  length v = n → i < n → permute f v !! f i = v !! i.
Proof.
  intros Hlen Hi.
  assert (is_Some (v !! i)) as [a Ha] by (apply lookup_lt_is_Some_2; lia).
  rewrite Ha. unfold permute.
  apply (scatter_lookup_hit f v 0 _ i a Ha); cbn.
  - intros k' Hk' Heq. apply f_inj in Heq; lia.
  - rewrite length_replicate, Hlen. by apply f_lt.
Qed.

End injection.

Section inverse_pair.

Variables (f g : bitCapInt → bitCapInt) (n : nat).
Hypothesis f_lt : ∀ i, i < n → f i < n.
Hypothesis g_lt : ∀ j, j < n → g j < n.
Hypothesis gf : ∀ i, i < n → g (f i) = i.
Hypothesis fg : ∀ j, j < n → f (g j) = j.

(** Scattering along [f] and then along its inverse restores the buffer. *)
Lemma permute_inverse (v : list complex) :
  length v = n → permute g (permute f v) = v.
Proof.
  intros Hlen. apply list_eq. intros j.
  destruct (decide (j < n)) as [Hj|Hj].
  - rewrite <- (gf j Hj) at 1.
    rewrite (permute_lookup g n g_lt).
    + apply (permute_lookup f n f_lt); [|done..].
      intros i i' Hi Hi' Heq. rewrite <- (gf i), <- (gf i'), Heq; done.
    + intros i i' Hi Hi' Heq. rewrite <- (fg i), <- (fg i'), Heq; done.
    + by rewrite permute_length.
    + by apply f_lt.
  - rewrite !lookup_ge_None_2; [done|lia|].
    rewrite !permute_length. lia.
Qed.

End inverse_pair.

(** ** Validation *)

Lemma validate_INC (toAdd : bitCapInt) (start length : bitLenInt)
    (e : QEngineCPU) :
  start + length ≤ qubitCount e →
  validate (INC toAdd start length) e = None.
Proof.
  intros Hfit. unfold validate, qubits_used, special_bits.
  assert (Hall : forallb (λ q, q <? qubitCount e) (seq start length) = true).
  { apply forallb_forall. intros q Hq%in_seq. apply Nat.ltb_lt. lia. }
  rewrite Hall, bool_decide_eq_true_2; [done|constructor].
Qed.

Lemma perform_INC (toAdd : bitCapInt) (start length : bitLenInt)
    (e : QEngineCPU) :
  start + length ≤ qubitCount e →
  perform (INC toAdd start length) e
  = (inr tt,
     with_stateVec (permute (inc_index toAdd start length) (stateVec e)) e).
Proof. intros Hfit. unfold perform. by rewrite validate_INC. Qed.

(** C9: on a register with [2^qubitCount] amplitudes, for a field inside
    the register and [toAdd < 2^length], both [INC toAdd] and
    [INC (2^length - toAdd)] are accepted, and after the two the
    amplitude vector is the one before the first. *)
Theorem INC_round_trip (e : QEngineCPU) (toAdd : bitCapInt)
    (start length : bitLenInt) :
  wf e → start + length ≤ qubitCount e → toAdd < 2 ^ length →
  let e1 := exec (perform (INC toAdd start length)) e in
  let e2 := exec (perform (INC (2 ^ length - toAdd) start length)) e1 in
  eval (perform (INC toAdd start length)) e = inr tt
  ∧ eval (perform (INC (2 ^ length - toAdd) start length)) e1 = inr tt
  ∧ stateVec e2 = stateVec e.
Proof.
  intros Hwf Hfit Hadd e1 e2. subst e1 e2. unfold eval, exec.
  rewrite (perform_INC toAdd) by done. cbn.
  rewrite perform_INC by done. cbn.
  split; [done|]. split; [done|].
  apply (permute_inverse _ _ (2 ^ qubitCount e)); [..|exact Hwf].
  - intros i Hi. by apply inc_index_lt.
  - intros i Hi. by apply inc_index_lt.
  - intros i _. apply inc_index_cancel.
    replace (toAdd + (2 ^ length - toAdd)) with (2 ^ length) by lia.
    apply Nat.Div0.mod_same.
  - intros i _. apply inc_index_cancel.
    replace (2 ^ length - toAdd + toAdd) with (2 ^ length) by lia.
    apply Nat.Div0.mod_same.
Qed.

(** [INC_round_trip] on two qubits, adding 1 to the whole register. *)
Lemma INC_round_trip_witness :
  stateVec (exec (perform (INC (2 ^ 2 - 1) 0 2))
              (exec (perform (INC 1 0 2)) two_qubits))
  = stateVec two_qubits.
Proof.
  apply (INC_round_trip two_qubits 1 0 2); [reflexivity | cbn; lia..].
Defined.

(** [INC 1] on two qubits moves every amplitude one index up, the last
    one to index 0. *)
Example INC_rotates_amplitudes (a0 a1 a2 a3 : complex) :
  perform (INC 1 0 2) (register 2 [a0; a1; a2; a3])
  = (inr tt, register 2 [a3; a0; a1; a2]).
Proof. reflexivity. Qed.

Lemma cadd_cmul_pauliX_row0 (x y : complex) :
  cadd (cmul czero x) (cmul cone y) = y.
Proof.
  destruct x as [[x0 x1]], y as [[y0 y1]].
  unfold cadd, cmul, on_temps, cells, czero, cone.
  ComplexSimdProps.run_member. apply ComplexSimdProps.complex_eq; ring.
Qed.

Lemma cadd_cmul_pauliX_row1 (x y : complex) :
  cadd (cmul cone x) (cmul czero y) = x.
Proof.
  destruct x as [[x0 x1]], y as [[y0 y1]].
  unfold cadd, cmul, on_temps, cells, czero, cone.
  ComplexSimdProps.run_member. apply ComplexSimdProps.complex_eq; ring.
Qed.

(** An accepted call does write: [CNOT(0, 1)] on two qubits exchanges
    the amplitudes of indices 1 and 3 and keeps those of 0 and 2. *)
Example CNOT_exchanges_controlled_pair (a0 a1 a2 a3 : complex) :
  perform (CNOT 0 1) (register 2 [a0; a1; a2; a3])
  = (inr tt, register 2 [a0; a3; a2; a1]).
Proof.
  unfold perform, exec. cbn.
  by rewrite cadd_cmul_pauliX_row0, cadd_cmul_pauliX_row1.
Qed.

(** Validation in the model: a control that is its own target, and a
    qubit index outside the register. *)
Example overlap_rejected :
  perform (CNOT 1 1) two_qubits = (inl Overlap, two_qubits).
Proof. reflexivity. Qed.

Example out_of_range_rejected :
  perform (X 2) two_qubits = (inl OutOfRange, two_qubits).
Proof. reflexivity. Qed.

End QEngineProps.

(** * Laws of the [ComplexSimd] operators

    The statements of this part use no property of the lane arithmetic
    beyond commutativity of the lane sum and of the lane product. *)

Module ComplexSimdAlgebra.

Import Sse2 Mem Qrack QEngine Temporaries.

Local Open Scope R_scope.

Ltac run_temps :=
  unfold cadd, cmul, creal, cimag, cnorm,
    czero, cone, on_temps, on_temp, cells;
  ComplexSimdProps.run_member.

Ltac lanes x := destruct x as [[? ?]].

(** Each const operator returns what it returns on temporaries that hold
    the values of its operands. *)
Lemma operators_on_values (σ : store) (z w : ref) :
  eval (operator_add z w) σ = cadd (σ z) (σ w)
  ∧ eval (operator_mul z w) σ = cmul (σ z) (σ w)
  ∧ eval (real z) σ = creal (σ z)
  ∧ eval (imag z) σ = cimag (σ z)
  ∧ eval (normSqrd z) σ = cnorm (σ z).
Proof. repeat split. Qed.

(** X1: an object built by [ComplexSimd(re, im)] reads back [re] with
    [real] and [im] with [imag], and rebuilding an object from what
    [real] and [imag] read gives the object. *)
Theorem constructor_accessor_round_trip (re im : R) (x : complex) :
  creal (ComplexSimd_doubles re im) = re
  ∧ cimag (ComplexSimd_doubles re im) = im
  ∧ ComplexSimd_doubles (creal x) (cimag x) = x.
Proof. lanes x. repeat split. Qed.

(** X2: [operator+] is commutative: [z + w] and [w + z] return the same
    value, for all operands, aliased or not. *)
Theorem operator_add_comm (σ : store) (z w : ref) :
  eval (operator_add z w) σ = eval (operator_add w z) σ.
Proof.
  ComplexSimdProps.run_member.
  apply ComplexSimdProps.complex_eq; apply Rplus_comm.
Qed.

(** X11: for all operands, [z *= w] returns and stores in [z] the product
    [z * w] with its real and imaginary parts exchanged, and writes no
    other object; it agrees with [z * w] exactly when the two parts of
    the product are equal. *)
Theorem operator_mul_assign_swapped_product (σ : store) (z w : ref) :
  let p := eval (operator_mul z w) σ in
  let r := ComplexSimd_doubles (cimag p) (creal p) in
  operator_mul_assign z w σ = (r, <[z := r]> σ)
  ∧ (eval (operator_mul_assign z w) σ = p ↔ creal p = cimag p).
Proof.
  intros p r. subst p r.
  assert (E : operator_mul_assign z w σ
              = (ComplexSimd_doubles
                   (cimag (eval (operator_mul z w) σ))
                   (creal (eval (operator_mul z w) σ)),
                 <[z := ComplexSimd_doubles
                          (cimag (eval (operator_mul z w) σ))
                          (creal (eval (operator_mul z w) σ))]> σ)).
  { run_temps. ComplexSimdProps.same_complex. }
  split; [exact E|].
  unfold eval at 1. rewrite E. cbn [fst].
  destruct (σ z) as [[a b]] eqn:Hz, (σ w) as [[c d]] eqn:Hw.
  run_temps. rewrite Hz, Hw. cbn. split.
  - intros [= H1 H2]. lra.
  - intros H. apply ComplexSimdProps.complex_eq; lra.
Qed.

(** X12: the exchange of the two parts does not show in the squared
    magnitude: [normSqrd] of the value that [z *= w] returns, and of the
    value it leaves in [z], is [normSqrd] of the product [z * w]. *)
Theorem operator_mul_assign_norm (σ : store) (z w : ref) :
  cnorm (eval (operator_mul_assign z w) σ)
  = cnorm (eval (operator_mul z w) σ)
  ∧ cnorm (exec (operator_mul_assign z w) σ z)
    = cnorm (eval (operator_mul z w) σ).
Proof.
  split; run_temps; apply Rplus_comm.
Qed.

End ComplexSimdAlgebra.

(** * The cached norm and the normalization flag *)

Module QEngineInlineProps.

Import Mem QEngine QEngineInline.

(** X14: [GetNorm(false)] reads back the value of the last [SetNorm],
    also across [EnableNormalize] calls; [SetNorm] and [EnableNormalize]
    commute, and neither changes the amplitude vector or [qubitCount]. *)
Theorem SetNorm_GetNorm_round_trip (e : QEngineCPU) (n m : real1)
    (doN : bool) :
  eval (SetNorm m;; SetNorm n;; GetNorm false) e = n
  ∧ eval (SetNorm n;; EnableNormalize doN;; GetNorm false) e = n
  ∧ exec (SetNorm n;; EnableNormalize doN) e
    = exec (EnableNormalize doN;; SetNorm n) e
  ∧ stateVec (exec (SetNorm n;; EnableNormalize doN) e) = stateVec e
  ∧ qubitCount (exec (SetNorm n;; EnableNormalize doN) e) = qubitCount e
  ∧ doNormalize (exec (SetNorm n;; EnableNormalize doN) e) = doN.
Proof. repeat split. Qed.

End QEngineInlineProps.
